(** * The coupled solve loop of [examples/elphf/input.py]

    The example script builds five cell variables on one 1-D mesh (the phase
    field, the electrostatic potential, two substitutional species and one
    interstitial species), binds an equation to each of them and then runs

<<
    dt = 1.
    elapsed = 0.
    for i in range(500):
        for field in [phase, potential] + substitutionals + interstitials:
            field.updateOld()
        for j in range(100):
            residual = 0.
            phase.equation.solve(var = phase, dt = dt)
            residual = max(max(phase.equation.residual), residual)
            phase.residual[:] = phase.equation.residual
            potential.equation.solve(var = potential, dt = dt, boundaryConditions = bcs)
            ...
            for Cj in substitutionals + interstitials:
                Cj.equation.solve(var = Cj, dt = dt, solver = solver)
                ...
            residualViewer.plot()
        elapsed += dt
        if __name__ == '__main__':
            ...
            print elapsed, residual
>>

    The loop is embedded as a computation in a state-and-exception monad over
    the objects it touches.  The discretisation and the linear solves belong
    to the library and stay a parameter ([kernel]). *)

From Stdlib Require Import List ZArith Bool Lia.
Import ListNotations.

Set Implicit Arguments.

(** ** Fields *)

(** The five cell variables that the loop solves for, by the names the script
    binds them to: [phase] ('xi'), [potential] ('phi'), [substitutionals[0]]
    ('SO4'), [substitutionals[1]] ('Cu') and [interstitials[0]] ('e-'). *)
Inductive field : Type := phase | potential | SO4 | Cu | eminus.

Definition field_eqb (f g : field) : bool :=
  match f, g with
  | phase, phase | potential, potential | SO4, SO4 | Cu, Cu | eminus, eminus => true
  | _, _ => false
  end.

Definition substitutionals : list field := [SO4; Cu].
Definition interstitials : list field := [eminus].

(** [[phase, potential] + substitutionals + interstitials] *)
Definition fields : list field := [phase; potential] ++ substitutionals ++ interstitials.

(** One slot per field: the attribute of a given name on each of the five
    objects ([.value], [.old], [.residual], [.equation.residual]). *)
Record per_field (A : Type) : Type := PerField {
  at_phase : A;
  at_potential : A;
  at_SO4 : A;
  at_Cu : A;
  at_eminus : A
}.

Definition get {A} (f : field) (m : per_field A) : A :=
  match f with
  | phase => at_phase m
  | potential => at_potential m
  | SO4 => at_SO4 m
  | Cu => at_Cu m
  | eminus => at_eminus m
  end.

Definition set {A} (f : field) (v : A) (m : per_field A) : per_field A :=
  match f with
  | phase => PerField v (at_potential m) (at_SO4 m) (at_Cu m) (at_eminus m)
  | potential => PerField (at_phase m) v (at_SO4 m) (at_Cu m) (at_eminus m)
  | SO4 => PerField (at_phase m) (at_potential m) v (at_Cu m) (at_eminus m)
  | Cu => PerField (at_phase m) (at_potential m) (at_SO4 m) v (at_eminus m)
  | eminus => PerField (at_phase m) (at_potential m) (at_SO4 m) (at_Cu m) v
  end.

(** ** Numbers *)

(** The Python floats of the script, through the operations the loop applies
    to them: the literals [0.] and [1.], [+] (in [elapsed += dt]) and [>]
    (inside the builtin [max]). *)
Class PyFloat (num : Type) : Type := {
  f_zero : num;
  f_one : num;
  f_add : num -> num -> num;
  f_gt : num -> num -> bool
}.

(** Floats that are numbers: without a NaN, [>] is a strict weak order. *)
Class NoNaN (num : Type) `{PyFloat num} : Prop := {
  gt_asym : forall a b : num, f_gt a b = true -> f_gt b a = false;
  gt_negtrans : forall a b c : num, f_gt a b = false -> f_gt b c = false -> f_gt a c = false
}.

(** ** Library objects named by the loop *)

Inductive faces : Type := FacesLeft | FacesRight.

(** [FixedValue(faces = ..., value = ...)] *)
Inductive boundaryCondition : Type := FixedValue (fs : faces) (v : Z).

(** [bcs = (FixedValue(faces = mesh.getFacesLeft(), value = 0),)] *)
Definition bcs : list boundaryCondition := [FixedValue FacesLeft 0].

Inductive linearSolver : Type := LinearLUSolver.

(** [solver = LinearLUSolver()] *)
Definition solver : linearSolver := LinearLUSolver.

Inductive viewer : Type := residualViewer | phaseViewer | concViewer | potentialViewer.

(** The exceptions that the statements of the loop raise in this embedding:
    [SolveFailure] from a solve, [ValueError] from [max] over an empty
    sequence, [NameError] from a name that is not bound. *)
Inductive exn : Type := SolveFailure | ValueError | NameError.

Section Loop.

Context {num : Type} `{PyFloat num}.

(** The values of a cell variable, one entry per cell. *)
Definition array : Type := list num.

(** What the loop calls or prints, in the order it does.  A [Solve] entry
    keeps the arguments of [eqn.equation.solve(var = ..., dt = ...,
    boundaryConditions = ..., solver = ...)] (an omitted [boundaryConditions]
    is the empty tuple, an omitted [solver] is [None]) and how the call ended:
    [Some r] when it returned and left [r] in [eqn.equation.residual], [None]
    when it raised [SolveFailure]. *)
Inductive call : Type :=
  | UpdateOld (f : field)
  | Solve (eqn var : field) (dt : num) (boundaryConditions : list boundaryCondition)
          (solver : option linearSolver) (result : option array)
  | Plot (v : viewer)
  | Output (elapsed residual : num).

(** The objects of the script that the loop reads or writes: for each field
    its value array, its old array, the [residual] attribute of its equation
    and its own [residual] cell variable; the local names [residual] (unbound
    until the first inner iteration) and [elapsed] (bound before the loop);
    and the calls made so far, newest first. *)
Record state : Type := State {
  value : per_field array;
  old : per_field array;
  eq_residual : per_field array;
  var_residual : per_field array;
  residual : option num;
  elapsed : num;
  calls : list call
}.

Definition with_value (v : per_field array) (s : state) : state :=
  State v (old s) (eq_residual s) (var_residual s) (residual s) (elapsed s) (calls s).
Definition with_old (o : per_field array) (s : state) : state :=
  State (value s) o (eq_residual s) (var_residual s) (residual s) (elapsed s) (calls s).
Definition with_eq_residual (r : per_field array) (s : state) : state :=
  State (value s) (old s) r (var_residual s) (residual s) (elapsed s) (calls s).
Definition with_var_residual (r : per_field array) (s : state) : state :=
  State (value s) (old s) (eq_residual s) r (residual s) (elapsed s) (calls s).
Definition with_residual (r : option num) (s : state) : state :=
  State (value s) (old s) (eq_residual s) (var_residual s) r (elapsed s) (calls s).
Definition with_elapsed (e : num) (s : state) : state :=
  State (value s) (old s) (eq_residual s) (var_residual s) (residual s) e (calls s).
Definition record (c : call) (s : state) : state :=
  State (value s) (old s) (eq_residual s) (var_residual s) (residual s) (elapsed s)
        (c :: calls s).

(** The calls in the order they were made. *)
Definition history (s : state) : list call := rev (calls s).

(** ** Statements: state and exceptions *)

(** A statement either completes or raises; both ways it leaves a state
    behind, since nothing in the script undoes a mutation. *)
Inductive outcome (A : Type) : Type :=
  | Ok (a : A) (s : state)
  | Raised (e : exn) (s : state).
Arguments Raised {A} e s.

Definition M (A : Type) : Type := state -> outcome A.

Definition ret {A} (a : A) : M A := fun s => Ok a s.
Definition raise {A} (e : exn) : M A := fun s => Raised e s.
Definition bind {A B} (m : M A) (k : A -> M B) : M B :=
  fun s => match m s with
           | Ok a s' => k a s'
           | Raised e s' => Raised e s'
           end.
Definition modify (f : state -> state) : M unit := fun s => Ok tt (f s).
Definition final {A} (o : outcome A) : state :=
  match o with Ok _ s => s | Raised _ s => s end.

Notation "m ;; k" := (bind m (fun _ => k)) (at level 61, right associativity).

(** [for x in l: body(x)] *)
Fixpoint for_each {X} (l : list X) (body : X -> M unit) : M unit :=
  match l with
  | [] => ret tt
  | x :: l' => body x ;; for_each l' body
  end.

(** [for i in range(n): body(i)] *)
Definition for_range (n : nat) (body : nat -> M unit) : M unit :=
  for_each (seq 0 n) body.

(** ** The builtin [max] *)

(** [max(a, b)]: the first argument unless the second is greater. *)
Definition py_max2 (a b : num) : num := if f_gt b a then b else a.

Fixpoint py_max_from (m : num) (xs : list num) : num :=
  match xs with
  | [] => m
  | x :: xs' => py_max_from (if f_gt x m then x else m) xs'
  end.

(** [max(xs)] over the entries of an array: [None] is the [ValueError] of an
    empty sequence. *)
Definition py_max (xs : array) : option num :=
  match xs with
  | [] => None
  | x :: xs' => Some (py_max_from x xs')
  end.

(** ** The library calls *)

(** The numerics of the library for the equation bound to [eqn], applied to
    the variable [var]: from the current and the old arrays of all fields (the
    coefficients of an equation read the other fields), the time step, the
    boundary conditions and the linear solver, either the new array of [var]
    and the residual of the solve, or [None] when the solve fails. *)
Variable kernel :
  field -> field -> per_field array -> per_field array -> num ->
  list boundaryCondition -> option linearSolver -> option (array * array).

(** [__name__ == '__main__']: the file is run as a script. *)
Variable interactive : bool.

(** Modelled from the spec: [updateOld] of the library's cell variable, which
    is not among the sources.  It "snapshots current into old"; the old array
    is a copy, no alias of the value array.  The keep-old flag of the
    constructor is not modelled: every field of the specification's data model
    carries an old snapshot. *)
Definition updateOld (f : field) : M unit :=
  modify (fun s => record (UpdateOld f) (with_old (set f (get f (value s)) (old s)) s)).

(** Modelled from the spec: [solve] of the library's equation, which is not
    among the sources.  The solve mutates the array of [var] in place and
    "exposes the residual of the last solve" on the equation; it "fails with a
    SolveFailure" when the underlying solve does, before it writes anything. *)
Definition solve (eqn var : field) (dt : num) (boundaryConditions : list boundaryCondition)
    (solver : option linearSolver) : M unit :=
  fun s =>
    match kernel eqn var (value s) (old s) dt boundaryConditions solver with
    | Some (x, r) =>
        Ok tt (record (Solve eqn var dt boundaryConditions solver (Some r))
                 (with_eq_residual (set eqn r (eq_residual s))
                    (with_value (set var x (value s)) s)))
    | None =>
        Raised SolveFailure (record (Solve eqn var dt boundaryConditions solver None) s)
    end.

(** [v.plot()]: observational. *)
Definition plot (v : viewer) : M unit := modify (record (Plot v)).

(** [residualViewer.plot()].  The name [residualViewer] is bound through
    [fipy.viewers.make] (l.279), and the name [fipy] only by the
    [import fipy.viewers] under [if __name__ == '__main__'] (l.253-254):
    outside a script [residualViewer] is unbound when the loop reaches it. *)
Definition plot_residuals : M unit :=
  if interactive then plot residualViewer else raise NameError.

(** ** The loop *)

(** [dt = 1.] *)
Definition dt : num := f_one.

(** The two statements after each solve:
<<
    residual = max(max(f.equation.residual), residual)
    f.residual[:] = f.equation.residual
>>
    Both arrays of the slice assignment are over the cells of the one mesh, so
    it copies entry for entry. *)
Definition track (f : field) : M unit :=
  fun s =>
    match py_max (get f (eq_residual s)) with
    | None => Raised ValueError s
    | Some m =>
        match residual s with
        | None => Raised NameError s
        | Some r =>
            Ok tt (with_var_residual (set f (get f (eq_residual s)) (var_residual s))
                     (with_residual (Some (py_max2 m r)) s))
        end
    end.

(** The body of [for j in range(100)]. *)
Definition inner_iteration : M unit :=
  modify (with_residual (Some f_zero)) ;;
  solve phase phase dt [] None ;;
  track phase ;;
  solve potential potential dt bcs None ;;
  track potential ;;
  for_each (substitutionals ++ interstitials)
    (fun Cj => solve Cj Cj dt [] (Some solver) ;; track Cj) ;;
  plot_residuals.

(** [print elapsed, residual] *)
Definition print_elapsed_residual : M unit :=
  fun s =>
    match residual s with
    | None => Raised NameError s
    | Some r => Ok tt (record (Output (elapsed s) r) s)
    end.

(** [for field in [phase, potential] + substitutionals + interstitials:
    field.updateOld()] *)
Definition update_old_all : M unit := for_each fields updateOld.

(** [for j in range(m): ...] *)
Definition inner_loop (m : nat) : M unit := for_range m (fun _ => inner_iteration).

(** The end of an outer step: [elapsed += dt], then the plots and the printed
    line under [if __name__ == '__main__']. *)
Definition advance_and_report : M unit :=
  modify (fun s => with_elapsed (f_add (elapsed s) dt) s) ;;
  if interactive then
    plot phaseViewer ;; plot concViewer ;; plot potentialViewer ;;
    print_elapsed_residual
  else ret tt.

(** The body of [for i in range(500)], with the iteration count of the inner
    loop as [m]. *)
Definition outer_step_n (m : nat) : M unit :=
  update_old_all ;; inner_loop m ;; advance_and_report.

Definition time_loop (n m : nat) : M unit :=
  for_range n (fun _ => outer_step_n m).

Definition outer_step : M unit := outer_step_n 100.

(** [for i in range(500): ...] *)
Definition loop : M unit := time_loop 500 100.

(** [elapsed = 0.] and the loop. *)
Definition script : M unit :=
  modify (with_elapsed f_zero) ;; loop.

(** ** The vocabulary of the properties *)

(** [r] is a maximum of [xs]: one of the entries, and none is greater. *)
Definition is_maximum (r : num) (xs : list num) : Prop :=
  In r xs /\ Forall (fun x => f_gt x r = false) xs.

(** The calls of one completed inner iteration that ended in [s']. *)
Definition iteration_calls (s' : state) : list call :=
  [ Solve phase phase dt [] None (Some (get phase (eq_residual s')));
    Solve potential potential dt bcs None (Some (get potential (eq_residual s')));
    Solve SO4 SO4 dt [] (Some solver) (Some (get SO4 (eq_residual s')));
    Solve Cu Cu dt [] (Some solver) (Some (get Cu (eq_residual s')));
    Solve eminus eminus dt [] (Some solver) (Some (get eminus (eq_residual s')));
    Plot residualViewer ].

(** The scalar that the five [residual = max(max(...), residual)] statements
    of one inner iteration leave, from the maxima of the five residuals. *)
Definition tracked (ms : per_field num) : num :=
  py_max2 (at_eminus ms) (py_max2 (at_Cu ms) (py_max2 (at_SO4 ms)
    (py_max2 (at_potential ms) (py_max2 (at_phase ms) f_zero)))).

(** The number of calls of a history that satisfy [p]. *)
Definition count (p : call -> bool) (h : list call) : nat := length (filter p h).

(** A solve of the equation of field [f]. *)
Definition is_solve_of (f : field) (c : call) : bool :=
  match c with
  | Solve eqn _ _ _ _ _ => field_eqb eqn f
  | _ => false
  end.

(** [residualViewer.plot()], the last statement of an inner iteration. *)
Definition is_residual_plot (c : call) : bool :=
  match c with
  | Plot residualViewer => true
  | _ => false
  end.

(** The calls of [m] inner iterations: [m] plots of the residuals and [m]
    solves of every equation. *)
Definition one_pass (m : nat) (h : list call) : Prop :=
  count is_residual_plot h = m /\ forall f, count (is_solve_of f) h = m.

(** Every solve of the history [h] was given the boundary conditions [b]. *)
Definition every_solve_passes (b : list boundaryCondition) (h : list call) : Prop :=
  forall eqn var d b' sv r, In (Solve eqn var d b' sv r) h -> b' = b.

(** Two states hold the same objects: they differ at most in the calls made. *)
Definition same_objects (s1 s2 : state) : Prop :=
  value s1 = value s2 /\ old s1 = old s2 /\ eq_residual s1 = eq_residual s2 /\
  var_residual s1 = var_residual s2 /\ residual s1 = residual s2 /\
  elapsed s1 = elapsed s2.

(** The variables that the solves of a history were applied to. *)
Definition solve_vars (h : list call) : list field :=
  flat_map (fun c => match c with Solve _ var _ _ _ _ => [var] | _ => [] end) h.

(** Every solve of the history was applied to the field that owns the
    equation. *)
Definition own_solves (h : list call) : Prop :=
  forall eqn var d b sv r, In (Solve eqn var d b sv r) h -> eqn = var.

(** A solve that raised [SolveFailure]. *)
Definition failed (c : call) : bool :=
  match c with
  | Solve _ _ _ _ _ None => true
  | _ => false
  end.

(** No solve of the history failed. *)
Definition clean (h : list call) : Prop := Forall (fun c => failed c = false) h.

(** How a statement started in [s] may end: it only adds calls; none of them
    is a failed solve unless the statement raised [SolveFailure], and then the
    failed solve is the last call and its numerics fail on the very arrays
    that the state left behind holds. *)
Definition disciplined {A} (s : state) (o : outcome A) : Prop :=
  exists h, history (final o) = history s ++ h /\
    match o with
    | Raised SolveFailure s' =>
        exists h0 eqn var d b sv,
          h = h0 ++ [Solve eqn var d b sv None] /\ clean h0 /\
          kernel eqn var (value s') (old s') d b sv = None
    | _ => clean h
    end.

(** A statement that ends that way from every state. *)
Definition orderly {A} (m : M A) : Prop := forall s, disciplined s (m s).

(** Two outcomes agree: both complete or both raise the same exception, and
    the states they leave are related by [R]. *)
Definition agree {A} (R : state -> state -> Prop) (o1 o2 : outcome A) : Prop :=
  match o1, o2 with
  | Ok a1 s1, Ok a2 s2 => a1 = a2 /\ R s1 s2
  | Raised e1 s1, Raised e2 s2 => e1 = e2 /\ R s1 s2
  | _, _ => False
  end.

(** What two runs have in common: at the start of an outer step, inside the
    inner loop, and after an inner iteration. *)
Definition same_values (s1 s2 : state) : Prop := value s1 = value s2.
Definition same_arrays (s1 s2 : state) : Prop := value s1 = value s2 /\ old s1 = old s2.
Definition same_tracked (s1 s2 : state) : Prop :=
  same_arrays s1 s2 /\ residual s1 = residual s2.

(** What the loop passes to the solve of each field besides the field and
    [dt]: boundary conditions to the potential alone, the LU solver to the
    substitutionals and the interstitial alone. *)
Definition boundary_conditions_of (f : field) : list boundaryCondition :=
  match f with
  | potential => bcs
  | _ => []
  end.

Definition solver_of (f : field) : option linearSolver :=
  match f with
  | phase | potential => None
  | _ => Some solver
  end.

(** After the specification ("in a fixed deterministic order", "later fields'
    equations read earlier fields' just-updated values"): one Gauss-Seidel
    sweep over the fields of [order], on the value arrays alone.  Each
    equation is solved against the old arrays [olds] and the arrays [vals] as
    the solves before it in the sweep left them; [None] when a solve fails. *)
Fixpoint gauss_seidel_sweep (order : list field) (olds vals : per_field array) :
    option (per_field array) :=
  match order with
  | [] => Some vals
  | f :: rest =>
      match kernel f f vals olds dt (boundary_conditions_of f) (solver_of f) with
      | Some (x, _) => gauss_seidel_sweep rest olds (set f x vals)
      | None => None
      end
  end.

(** What the loop is not: a Jacobi sweep, in which every equation is solved
    from the arrays [start] that the sweep began with. *)
Fixpoint jacobi_sweep (order : list field) (olds start vals : per_field array) :
    option (per_field array) :=
  match order with
  | [] => Some vals
  | f :: rest =>
      match kernel f f start olds dt (boundary_conditions_of f) (solver_of f) with
      | Some (x, _) => jacobi_sweep rest olds start (set f x vals)
      | None => None
      end
  end.

(** [m] sweeps in the order of [fields] against the same old arrays. *)
Fixpoint gauss_seidel_sweeps (m : nat) (olds vals : per_field array) :
    option (per_field array) :=
  match m with
  | 0 => Some vals
  | S m' =>
      match gauss_seidel_sweep fields olds vals with
      | Some vals' => gauss_seidel_sweeps m' olds vals'
      | None => None
      end
  end.

(** After the specification: [n] outer steps, each the snapshot of the
    current arrays followed by [m] sweeps against it. *)
Fixpoint gauss_seidel_run (n m : nat) (vals : per_field array) :
    option (per_field array) :=
  match n with
  | 0 => Some vals
  | S n' =>
      match gauss_seidel_sweeps m vals vals with
      | Some vals' => gauss_seidel_run n' m vals'
      | None => None
      end
  end.

(** The numerics never fail and every residual has an entry. *)
Definition total_kernel : Prop :=
  forall eqn var vs os d b sv, exists x y r, kernel eqn var vs os d b sv = Some (x, y :: r).

(** [elapsed += dt], as a function of the clock. *)
Definition advance (e : num) : num := f_add e dt.

(** The lines that the calls of a history printed: elapsed time and residual. *)
Definition printed (h : list call) : list (num * num) :=
  flat_map (fun c => match c with Output e r => [(e, r)] | _ => [] end) h.

(** The old arrays and the clock of [s'] are those of [s]. *)
Definition same_snapshot (s s' : state) : Prop :=
  old s' = old s /\ elapsed s' = elapsed s.

(** A statement that leaves them alone, however it ends. *)
Definition keeps_snapshot {A} (m : M A) : Prop :=
  forall s, same_snapshot s (final (m s)).

(** ** Basic facts *)

Lemma field_eqb_eq (f g : field) : field_eqb f g = true <-> f = g.
Proof. destruct f, g; simpl; split; intros E; congruence. Qed.

Lemma get_set_same {A} (f : field) (v : A) (m : per_field A) : get f (set f v m) = v.
Proof. destruct f; reflexivity. Qed.

Lemma get_set_other {A} (f g : field) (v : A) (m : per_field A) :
  f <> g -> get f (set g v m) = get f m.
Proof. destruct f, g; intros N; try reflexivity; congruence. Qed.

Lemma per_field_ext {A} (m1 m2 : per_field A) :
  (forall f, get f m1 = get f m2) -> m1 = m2.
Proof.
  intros E. destruct m1, m2.
  pose proof (E phase); pose proof (E potential); pose proof (E SO4);
    pose proof (E Cu); pose proof (E eminus); simpl in *; congruence.
Qed.

Lemma bind_ok {A B} (m : M A) (k : A -> M B) s b s' :
  bind m k s = Ok b s' -> exists a s1, m s = Ok a s1 /\ k a s1 = Ok b s'.
Proof.
  unfold bind. destruct (m s) as [a s1|e s1]; intros E; [eauto | discriminate].
Qed.

Lemma bind_step {A B} (m : M A) (k : A -> M B) s a s1 :
  m s = Ok a s1 -> bind m k s = k a s1.
Proof. unfold bind. intros ->. reflexivity. Qed.

(** Strips the statements of a straight-line block one after the other. *)
Ltac step_through H :=
  repeat (match type of H with
          | context [match ?x with _ => _ end] =>
              lazymatch x with
              | context [match _ with _ => _ end] => fail
              | _ => let E := fresh "E" in destruct x eqn:E
              end
          end; cbn in H; try discriminate H).

(** The same on the goal. *)
Ltac case_through :=
  repeat (match goal with
          | |- context [match ?x with _ => _ end] =>
              lazymatch x with
              | context [match _ with _ => _ end] => fail
              | _ => let E := fresh "E" in destruct x eqn:E
              end
          end; cbn).

(** ** One inner iteration, when it completes *)

Lemma inner_iteration_ok s s' :
  inner_iteration s = Ok tt s' ->
  history s' = history s ++ iteration_calls s' /\
  old s' = old s /\ elapsed s' = elapsed s /\
  var_residual s' = eq_residual s' /\
  (exists ms : per_field num,
      (forall f, py_max (get f (eq_residual s')) = Some (get f ms)) /\
      residual s' = Some (tracked ms)) /\
  kernel phase phase (value s) (old s) dt [] None
    = Some (get phase (value s'), get phase (eq_residual s')) /\
  kernel potential potential (set phase (get phase (value s')) (value s)) (old s) dt bcs None
    = Some (get potential (value s'), get potential (eq_residual s')) /\
  kernel SO4 SO4
    (set potential (get potential (value s')) (set phase (get phase (value s')) (value s)))
    (old s) dt [] (Some solver)
    = Some (get SO4 (value s'), get SO4 (eq_residual s')) /\
  kernel Cu Cu
    (set SO4 (get SO4 (value s'))
       (set potential (get potential (value s')) (set phase (get phase (value s')) (value s))))
    (old s) dt [] (Some solver)
    = Some (get Cu (value s'), get Cu (eq_residual s')) /\
  kernel eminus eminus
    (set Cu (get Cu (value s'))
       (set SO4 (get SO4 (value s'))
          (set potential (get potential (value s'))
             (set phase (get phase (value s')) (value s)))))
    (old s) dt [] (Some solver)
    = Some (get eminus (value s'), get eminus (eq_residual s')).
Proof.
  intros R. destruct s as [v o er vr r el cs].
  unfold inner_iteration, substitutionals, interstitials in R.
  cbn [for_each app] in R.
  unfold bind, ret, raise, modify, solve, track, plot_residuals, plot in R. cbn in R.
  step_through R.
  injection R as <-. cbn.
  repeat match goal with p : (array * array)%type |- _ => destruct p end.
  repeat match goal with E : Some _ = Some _ |- _ => injection E as <- end.
  unfold history. cbn. rewrite <- ?app_assoc. cbn.
  repeat split; try assumption.
  eexists (PerField _ _ _ _ _). split.
  - intros f; destruct f; cbn; eassumption.
  - reflexivity.
Qed.

(** ** Loops *)

Lemma for_each_app {X} (l1 l2 : list X) (body : X -> M unit) (s : state) :
  for_each (l1 ++ l2) body s = (for_each l1 body ;; for_each l2 body) s.
Proof.
  revert s. induction l1 as [|x l1 IH]; intros s; cbn [for_each app].
  - reflexivity.
  - unfold bind. destruct (body x s) as [[] s1|e s1]; [|reflexivity].
    rewrite IH. reflexivity.
Qed.

Lemma for_range_S (n : nat) (body : nat -> M unit) (s : state) :
  for_range (S n) body s = (for_range n body ;; body n) s.
Proof.
  unfold for_range. rewrite seq_S, for_each_app. cbn [for_each Nat.add].
  unfold bind, ret. destruct (for_each (seq 0 n) body s) as [[] s1|e s1]; [|reflexivity].
  destruct (body n s1) as [[] s2|e s2]; reflexivity.
Qed.

(** A completed loop leaves one segment of history per round. *)
Lemma for_each_segments {X} (P : list call -> Prop) (body : X -> M unit) :
  (forall x s s', body x s = Ok tt s' -> exists h, history s' = history s ++ h /\ P h) ->
  forall l s s', for_each l body s = Ok tt s' ->
  exists hs, history s' = history s ++ concat hs /\ length hs = length l /\ Forall P hs.
Proof.
  intros B l. induction l as [|x l IH]; intros s s' R; cbn [for_each] in R.
  - injection R as <-. exists []. cbn. rewrite app_nil_r. auto.
  - apply bind_ok in R as ([] & s1 & R1 & R2).
    apply B in R1 as (h & Hh & Ph). apply IH in R2 as (hs & Hhs & L & F).
    exists (h :: hs). cbn. rewrite Hhs, Hh, <- app_assoc. auto.
Qed.

(** ** Counting calls *)






(** ** The parts of an outer step *)

Lemma update_old_all_ok (s : state) :
  exists s1, update_old_all s = Ok tt s1 /\
    history s1 = history s ++ map UpdateOld fields /\
    value s1 = value s /\ old s1 = value s /\
    eq_residual s1 = eq_residual s /\ var_residual s1 = var_residual s /\
    residual s1 = residual s /\ elapsed s1 = elapsed s.
Proof.
  destruct s as [[v1 v2 v3 v4 v5] o er vr r el cs].
  eexists. split; [reflexivity|].
  unfold history. cbn. rewrite <- ?app_assoc. cbn. repeat split; reflexivity.
Qed.


Lemma advance_and_report_ok (s s' : state) :
  advance_and_report s = Ok tt s' ->
  value s' = value s /\ old s' = old s /\ eq_residual s' = eq_residual s /\
  residual s' = residual s /\ elapsed s' = f_add (elapsed s) dt /\
  exists h, history s' = history s ++ h /\ one_pass 0 h /\
    (interactive = false -> h = []) /\
    (interactive = true -> exists r, residual s = Some r /\
       h = [Plot phaseViewer; Plot concViewer; Plot potentialViewer;
            Output (elapsed s') r]).
Proof.
  unfold advance_and_report, bind, modify, plot, print_elapsed_residual, ret.
  destruct s as [v o er vr r el cs]. cbn.
  destruct interactive; cbn.
  - destruct r as [r|]; [|discriminate]. intros E; injection E as <-. cbn.
    repeat split.
    exists [Plot phaseViewer; Plot concViewer; Plot potentialViewer; Output (f_add el dt) r].
    unfold history. cbn. split; [rewrite <- !app_assoc; reflexivity|].
    repeat split; try reflexivity; try discriminate.
    intros _. exists r. split; reflexivity.
  - intros E; injection E as <-. cbn. repeat split.
    exists []. rewrite app_nil_r. repeat split; try reflexivity; discriminate.
Qed.



(** ** Order and arguments of the solves *)

(** C4 (amended): a completed inner iteration solves, in this order, the
    equations of phase, potential, SO4, Cu and e-, each for its own field and
    with the one time step [dt]; the boundary conditions [bcs] go to the
    potential solve alone and the LU solver to the three component solves
    alone.  The residual of every solve is captured: it is copied into the
    field's [residual] variable and its maximum is folded into the scalar
    [residual]. *)
Theorem C4_solve_order_and_arguments (s s' : state) :
  inner_iteration s = Ok tt s' ->
  history s' = history s ++
    [ Solve phase phase dt [] None (Some (get phase (eq_residual s')));
      Solve potential potential dt bcs None (Some (get potential (eq_residual s')));
      Solve SO4 SO4 dt [] (Some solver) (Some (get SO4 (eq_residual s')));
      Solve Cu Cu dt [] (Some solver) (Some (get Cu (eq_residual s')));
      Solve eminus eminus dt [] (Some solver) (Some (get eminus (eq_residual s')));
      Plot residualViewer ] /\
  var_residual s' = eq_residual s' /\
  exists ms : per_field num,
    (forall f, py_max (get f (eq_residual s')) = Some (get f ms)) /\
    residual s' = Some (tracked ms).
Proof.
  intros R. apply inner_iteration_ok in R as (Hh & _ & _ & Hv & Hm & _).
  repeat split; assumption.
Qed.

(** ** Snapshots *)

(** C5: the first statement of an outer step calls [updateOld] on phase,
    potential, SO4, Cu and e-, in this order, and always completes; after it
    the old array of every field is the value array that the field had when
    the step began, which is still its value; the solves of the step (the
    inner loop) only run from that state. *)
Theorem C5_update_old_precedes_solves (s : state) :
  exists s1,
    update_old_all s = Ok tt s1 /\
    history s1 = history s ++
      [UpdateOld phase; UpdateOld potential; UpdateOld SO4; UpdateOld Cu; UpdateOld eminus] /\
    (forall f, get f (old s1) = get f (value s) /\ get f (value s1) = get f (value s)) /\
    outer_step s = (inner_loop 100 ;; advance_and_report) s1.
Proof.
  destruct (update_old_all_ok s) as (s1 & R & Hh & Hv & Ho & _).
  exists s1. repeat split.
  - exact R.
  - exact Hh.
  - rewrite Ho. reflexivity.
  - rewrite Hv. reflexivity.
  - unfold outer_step, outer_step_n. unfold bind at 1. rewrite R. reflexivity.
Qed.

(** C8: a second [updateOld] right after the first changes no object, for one
    field and for the loop over all of them, and leaves old equal to the
    current value. *)
Theorem C8_updateOld_idempotent :
  (forall (f : field) (s : state), exists s1 s2,
      updateOld f s = Ok tt s1 /\ updateOld f s1 = Ok tt s2 /\
      same_objects s1 s2 /\ get f (old s2) = get f (value s2)) /\
  (forall s : state, exists s1 s2,
      update_old_all s = Ok tt s1 /\ update_old_all s1 = Ok tt s2 /\
      same_objects s1 s2 /\ forall f, get f (old s2) = get f (value s2)).
Proof.
  split.
  - intros f s. do 2 eexists. split; [reflexivity|]. split; [reflexivity|].
    destruct s as [v o er vr r el cs]. unfold same_objects. cbn.
    rewrite !get_set_same. repeat split.
    apply per_field_ext. intros g. destruct f, g; reflexivity.
  - intros s.
    destruct (update_old_all_ok s) as (s1 & R1 & _ & Hv1 & Ho1 & _).
    destruct (update_old_all_ok s1) as (s2 & R2 & _ & Hv2 & Ho2 & He & Hr & Hres & Hel).
    exists s1, s2. unfold same_objects. repeat split; congruence.
Qed.

(** ** Who writes which array *)

Lemma inner_iteration_solves (s : state) :
  exists h, history (final (inner_iteration s)) = history s ++ h /\
            own_solves h /\ NoDup (solve_vars h).
Proof.
  destruct s as [v o er vr r el cs].
  unfold inner_iteration, substitutionals, interstitials. cbn [for_each app].
  unfold bind, ret, raise, modify, solve, track, plot_residuals, plot. cbn.
  case_through;
    (eexists; split;
     [unfold history; cbn; rewrite <- ?app_assoc; cbn; reflexivity|];
     split;
     [ intros eqn var d b sv r0 I; cbn in I;
       repeat (destruct I as [I|I]; [try discriminate I; injection I; intros; congruence|]);
       destruct I
     | cbn; repeat constructor; cbn; intuition discriminate ]).
Qed.

(** C7: in every inner iteration, completed or not, each solve is applied to
    the field that owns the equation and no field is the variable of two
    solves.  A solve leaves the value array of every other field as it was,
    and so do the statements between the solves.  When the iteration
    completes, the final array of a field is the one its own solve wrote, the
    field kept its initial array until then, and the arrays that this solve
    read from the other fields are their initial or their final ones. *)
Theorem C7_only_own_solve_writes (s s' : state) :
  inner_iteration s = Ok tt s' ->
  (exists h, history s' = history s ++ h /\ own_solves h /\ NoDup (solve_vars h)) /\
  (forall eqn var d b sv a f, f <> var ->
     get f (value (final (solve eqn var d b sv a))) = get f (value a)) /\
  (forall f a, value (final (track f a)) = value a) /\
  (forall f, exists vs b sv r,
     kernel f f vs (old s) dt b sv = Some (get f (value s'), r) /\
     get f vs = get f (value s) /\
     forall g, get g vs = get g (value s) \/ get g vs = get g (value s')).
Proof.
  intros R. repeat split.
  - destruct (inner_iteration_solves s) as (h & Hh & Ho & Hn).
    rewrite R in Hh. exists h. auto.
  - intros eqn var d b sv a f N. unfold solve.
    destruct (kernel eqn var (value a) (old a) d b sv) as [[x r]|]; cbn;
      [apply get_set_other; exact N | reflexivity].
  - intros f a. unfold track.
    destruct (py_max (get f (eq_residual a))); [|reflexivity].
    destruct (residual a); reflexivity.
  - apply inner_iteration_ok in R as (_ & _ & _ & _ & _ & K1 & K2 & K3 & K4 & K5).
    intros f; destruct f; do 4 eexists;
      (split; [eassumption|]); (split; [reflexivity|]);
      intros g; destruct g; cbn; auto.
Qed.

(** ** Failure of a solve *)

Lemma clean_app (h1 h2 : list call) : clean h1 -> clean h2 -> clean (h1 ++ h2).
Proof. intros C1 C2. apply Forall_app. auto. Qed.

Lemma orderly_bind {A B} (m : M A) (k : A -> M B) :
  orderly m -> (forall a, orderly (k a)) -> orderly (bind m k).
Proof.
  intros Om Ok_ s. unfold bind. specialize (Om s).
  destruct (m s) as [a s1|e s1]; [|exact Om].
  destruct Om as (h1 & H1 & C1). cbn in H1.
  destruct (Ok_ a s1) as (h2 & H2 & C2).
  exists (h1 ++ h2). split; [rewrite H2, H1, app_assoc; reflexivity|].
  destruct (k a s1) as [b s2|[] s2]; try (apply clean_app; assumption).
  destruct C2 as (h0 & eqn & var & d & b & sv & -> & C0 & K).
  exists (h1 ++ h0), eqn, var, d, b, sv.
  split; [apply app_assoc|]. split; [apply clean_app; assumption | exact K].
Qed.

Lemma orderly_ret {A} (a : A) : orderly (ret a).
Proof. intros s. exists []. cbn. rewrite app_nil_r. split; constructor. Qed.

Lemma orderly_for_each {X} (l : list X) (body : X -> M unit) :
  (forall x, orderly (body x)) -> orderly (for_each l body).
Proof.
  intros Ob. induction l as [|x l IH]; cbn [for_each];
    [apply orderly_ret | apply orderly_bind; auto].
Qed.

Lemma orderly_silent (f : state -> state) :
  (forall s, calls (f s) = calls s) -> orderly (modify f).
Proof.
  intros E s. exists []. cbn. unfold history. rewrite E, app_nil_r. split; constructor.
Qed.

Lemma orderly_record (c : call) : failed c = false -> orderly (modify (record c)).
Proof. intros F s. exists [c]. cbn. split; [reflexivity | repeat constructor; exact F]. Qed.

Lemma orderly_updateOld (f : field) : orderly (updateOld f).
Proof. intros s. exists [UpdateOld f]. cbn. split; [reflexivity | repeat constructor]. Qed.

Lemma orderly_solve eqn var d b sv : orderly (solve eqn var d b sv).
Proof.
  intros s. unfold solve.
  destruct (kernel eqn var (value s) (old s) d b sv) as [[x r]|] eqn:K.
  - eexists. cbn. split; [reflexivity | repeat constructor].
  - eexists. cbn. split; [reflexivity|].
    exists [], eqn, var, d, b, sv. repeat split; [constructor | exact K].
Qed.

Lemma orderly_track (f : field) : orderly (track f).
Proof.
  intros s. unfold track. exists [].
  destruct (py_max (get f (eq_residual s))); [destruct (residual s)|];
    cbn; rewrite app_nil_r; split; constructor.
Qed.

Lemma orderly_print : orderly print_elapsed_residual.
Proof.
  intros s. unfold print_elapsed_residual. destruct (residual s) as [r|].
  - eexists. cbn. split; [reflexivity | repeat constructor].
  - exists []. cbn. rewrite app_nil_r. split; constructor.
Qed.

Lemma orderly_plot_residuals : orderly plot_residuals.
Proof.
  unfold plot_residuals. destruct interactive; [apply orderly_record; reflexivity|].
  intros s. exists []. cbn. rewrite app_nil_r. split; constructor.
Qed.

Lemma orderly_inner_iteration : orderly inner_iteration.
Proof.
  unfold inner_iteration.
  repeat first
    [ apply orderly_plot_residuals
    | apply orderly_bind; [|intros _]
    | apply orderly_for_each; intros Cj
    | apply orderly_solve | apply orderly_track
    | apply orderly_silent; reflexivity
    | apply orderly_record; reflexivity ].
Qed.

Lemma orderly_time_loop (n m : nat) : orderly (time_loop n m).
Proof.
  unfold time_loop, for_range. apply orderly_for_each. intros _.
  unfold outer_step_n, update_old_all, inner_loop, advance_and_report, for_range.
  repeat first
    [ apply orderly_updateOld | apply orderly_inner_iteration
    | apply orderly_for_each; intros ?
    | apply orderly_silent; reflexivity
    | apply orderly_bind; [|intros _] ].
  destruct interactive; [|apply orderly_ret].
  repeat first
    [ apply orderly_bind; [|intros _]
    | apply orderly_print
    | apply orderly_record; reflexivity ].
Qed.

(** C6: when a solve raises [SolveFailure] anywhere in the run, that solve is
    the last call of the run (no further solve, no retry), the run itself ends
    with that [SolveFailure] (no recovery), no solve had failed before, and
    the state the run leaves behind holds the arrays on which the numerics of
    the failed solve fail. *)
Theorem C6_solve_failure_aborts_run (s : state) (pre post : list call) (c : call) :
  history (final (loop s)) = history s ++ pre ++ c :: post ->
  failed c = true ->
  post = [] /\
  loop s = Raised SolveFailure (final (loop s)) /\
  clean pre /\
  exists eqn var d b sv,
    c = Solve eqn var d b sv None /\
    kernel eqn var (value (final (loop s))) (old (final (loop s))) d b sv = None.
Proof.
  intros Hh Fc. destruct (orderly_time_loop 500 100 s) as (h & Hh' & D).
  fold loop in Hh', D. rewrite Hh in Hh'. apply app_inv_head in Hh'. subst h.
  assert (dirty : ~ clean (pre ++ c :: post)).
  { intros C. apply Forall_app in C as [_ C]. apply Forall_cons_iff in C as [C _].
    congruence. }
  destruct (loop s) as [a s'|e s']; [contradiction|].
  destruct e; try contradiction.
  destruct D as (h0 & eqn & var & d & b & sv & E & C0 & K). cbn in K |- *.
  destruct (exists_last (l := c :: post)) as (l' & x & El); [discriminate|].
  rewrite El, app_assoc in E. apply app_inj_tail in E as [E Ex]. subst h0 x.
  destruct post as [|y post].
  - destruct l' as [|z l']; [|destruct l'; discriminate El].
    injection El as ->. rewrite app_nil_r in C0.
    repeat split; auto. exists eqn, var, d, b, sv. auto.
  - exfalso. destruct l' as [|z l']; [discriminate El|]. injection El as <- _.
    apply Forall_app in C0 as [_ C0]. apply Forall_cons_iff in C0 as [C0 _].
    congruence.
Qed.

(** ** Two runs *)

Lemma agree_bind {A B} (Q R : state -> state -> Prop) (m : M A) (k : A -> M B) s1 s2 :
  agree Q (m s1) (m s2) ->
  (forall t1 t2, Q t1 t2 -> R t1 t2) ->
  (forall a t1 t2, Q t1 t2 -> agree R (k a t1) (k a t2)) ->
  agree R (bind m k s1) (bind m k s2).
Proof.
  unfold bind. intros Am QR Ak.
  destruct (m s1) as [a1 t1|e1 t1], (m s2) as [a2 t2|e2 t2]; cbn in Am; try contradiction.
  - destruct Am as [<- Q12]. apply Ak, Q12.
  - destruct Am as [<- Q12]. cbn. auto.
Qed.

Lemma agree_for_each {X} (I : state -> state -> Prop) (body : X -> M unit) :
  (forall x s1 s2, I s1 s2 -> agree I (body x s1) (body x s2)) ->
  forall l s1 s2, I s1 s2 -> agree I (for_each l body s1) (for_each l body s2).
Proof.
  intros Ab l. induction l as [|x l IH]; intros s1 s2 I12; cbn [for_each].
  - cbn. auto.
  - apply agree_bind with (Q := I); auto.
Qed.

Lemma agree_inner_iteration (s1 s2 : state) :
  same_arrays s1 s2 -> agree same_tracked (inner_iteration s1) (inner_iteration s2).
Proof.
  destruct s1 as [v1 o1 er1 vr1 r1 el1 cs1], s2 as [v2 o2 er2 vr2 r2 el2 cs2].
  intros [Ev Eo]. cbn in Ev, Eo. subst v2 o2.
  unfold inner_iteration, substitutionals, interstitials. cbn [for_each app].
  unfold bind, ret, raise, modify, solve, track, plot_residuals, plot, same_tracked, same_arrays. cbn.
  case_through; repeat split.
Qed.

Lemma agree_inner_loop (m : nat) (s1 s2 : state) :
  same_arrays s1 s2 ->
  agree same_tracked (inner_loop (S m) s1) (inner_loop (S m) s2).
Proof.
  intros S12. unfold inner_loop, for_range. cbn [seq for_each].
  apply agree_bind with (Q := same_tracked); auto using agree_inner_iteration.
  intros _ t1 t2 T12. apply agree_for_each; [|exact T12].
  intros _ u1 u2 [U12 _]. apply agree_inner_iteration, U12.
Qed.

Lemma agree_advance_and_report (s1 s2 : state) :
  same_tracked s1 s2 ->
  agree same_values (advance_and_report s1) (advance_and_report s2).
Proof.
  destruct s1 as [v1 o1 er1 vr1 r1 el1 cs1], s2 as [v2 o2 er2 vr2 r2 el2 cs2].
  intros [[Ev Eo] Er]. cbn in Ev, Eo, Er. subst v2 o2 r2.
  unfold advance_and_report, bind, ret, modify, plot, print_elapsed_residual, same_values.
  cbn. destruct interactive; cbn; [destruct r1|]; cbn; auto.
Qed.

Lemma agree_outer_step_n (m : nat) (s1 s2 : state) :
  same_values s1 s2 ->
  agree same_values (outer_step_n (S m) s1) (outer_step_n (S m) s2).
Proof.
  intros V12. unfold outer_step_n, bind.
  destruct (update_old_all_ok s1) as (t1 & -> & _ & Hv1 & Ho1 & _).
  destruct (update_old_all_ok s2) as (t2 & -> & _ & Hv2 & Ho2 & _).
  assert (T12 : same_arrays t1 t2) by (unfold same_values, same_arrays in *; split; congruence).
  pose proof (agree_inner_loop m T12) as L.
  destruct (inner_loop (S m) t1) as [[] u1|e1 u1], (inner_loop (S m) t2) as [[] u2|e2 u2];
    cbn in L; try contradiction.
  - apply agree_advance_and_report, L.
  - cbn. destruct L as [-> [[Ev _] _]]. auto.
Qed.

(** The value arrays through the loop are those of the sweeps. *)
Lemma inner_iteration_sweep (s s' : state) :
  inner_iteration s = Ok tt s' ->
  gauss_seidel_sweep fields (old s) (value s) = Some (value s').
Proof.
  intros R. apply inner_iteration_ok in R as (_ & _ & _ & _ & _ & K1 & K2 & K3 & K4 & K5).
  unfold fields, substitutionals, interstitials.
  cbn [app gauss_seidel_sweep boundary_conditions_of solver_of].
  rewrite K1, K2, K3, K4, K5. f_equal.
  apply per_field_ext. intros f. destruct f; reflexivity.
Qed.

Lemma inner_loop_sweeps {X} (l : list X) : forall s s',
  for_each l (fun _ => inner_iteration) s = Ok tt s' ->
  gauss_seidel_sweeps (length l) (old s) (value s) = Some (value s') /\ old s' = old s.
Proof.
  induction l as [|x l IH]; intros s s' R; cbn [for_each] in R.
  - injection R as <-. split; reflexivity.
  - apply bind_ok in R as ([] & s1 & R1 & R2).
    pose proof (inner_iteration_sweep _ R1) as G.
    apply inner_iteration_ok in R1 as (_ & O1 & _).
    apply IH in R2 as [G2 O2]. cbn [length gauss_seidel_sweeps].
    rewrite G, <- O1. split; [exact G2 | congruence].
Qed.

Lemma outer_step_n_sweeps (m : nat) (s s' : state) :
  outer_step_n m s = Ok tt s' ->
  gauss_seidel_sweeps m (value s) (value s) = Some (value s').
Proof.
  intros R. unfold outer_step_n in R.
  destruct (update_old_all_ok s) as (s1 & R1 & _ & V1 & O1 & _).
  unfold bind at 1 in R. rewrite R1 in R.
  apply bind_ok in R as ([] & s2 & R2 & R3).
  unfold inner_loop, for_range in R2. apply inner_loop_sweeps in R2 as [G _].
  rewrite length_seq, O1, V1 in G.
  apply advance_and_report_ok in R3 as (V3 & _). congruence.
Qed.

Lemma time_loop_run {X} (m : nat) (l : list X) : forall s s',
  for_each l (fun _ => outer_step_n m) s = Ok tt s' ->
  gauss_seidel_run (length l) m (value s) = Some (value s').
Proof.
  induction l as [|x l IH]; intros s s' R; cbn [for_each] in R.
  - injection R as <-. reflexivity.
  - apply bind_ok in R as ([] & s1 & R1 & R2).
    apply outer_step_n_sweeps in R1. apply IH in R2.
    cbn [length gauss_seidel_run]. rewrite R1. exact R2.
Qed.

(** C9: two runs of the loop that start from identical value arrays (with the
    same equations, mesh and parameters, that is the same [kernel], and the
    same [dt] and iteration counts) end the same way, with identical value
    arrays for every field, whatever else the two initial states hold.  The
    arrays of a completed run are those of 500 snapshots with 100
    Gauss-Seidel sweeps each, in the order phase, potential, SO4, Cu, e-, every
    solve reading what the solves before it in the sweep wrote: a function of
    the initial value arrays alone, fixed by that order. *)
Theorem C9_loop_is_deterministic (s1 s2 : state) :
  (forall f, get f (value s1) = get f (value s2)) ->
  agree (fun t1 t2 => forall f, get f (value t1) = get f (value t2)) (loop s1) (loop s2) /\
  (forall t1, loop s1 = Ok tt t1 ->
     gauss_seidel_run 500 100 (value s2) = Some (value t1)).
Proof.
  intros E. apply per_field_ext in E. split.
  - assert (A : agree same_values (loop s1) (loop s2)).
    { unfold loop, time_loop, for_range. apply agree_for_each; [|exact E].
      intros _ t1 t2 T12. apply agree_outer_step_n, T12. }
    destruct (loop s1) as [a1 t1|e1 t1], (loop s2) as [a2 t2|e2 t2]; cbn in A |- *;
      try contradiction; destruct A as [-> A]; split; auto; intros f; rewrite A; reflexivity.
  - intros t1 R. rewrite <- E. unfold loop, time_loop, for_range in R.
    apply time_loop_run in R. rewrite length_seq in R. exact R.
Qed.

(** ** Runs that complete *)

Lemma inner_iteration_completes :
  total_kernel -> interactive = true -> forall s, exists s', inner_iteration s = Ok tt s'.
Proof.
  intros T Ei s. destruct s as [v o er vr r el cs].
  unfold inner_iteration, substitutionals, interstitials. cbn [for_each app].
  unfold bind, ret, raise, modify, solve, track, plot_residuals, plot. rewrite Ei. cbn.
  repeat match goal with
         | |- context [kernel ?e ?w ?vs ?os ?d ?b ?sv] =>
             let x := fresh "x" in let y := fresh "y" in let r := fresh "r" in
             destruct (T e w vs os d b sv) as (x & y & r & ->); cbn
         end.
  eexists. reflexivity.
Qed.

Lemma for_each_completes {X} (I : state -> Prop) (body : X -> M unit) :
  (forall x s, I s -> exists s', body x s = Ok tt s' /\ I s') ->
  forall l s, I s -> exists s', for_each l body s = Ok tt s' /\ I s'.
Proof.
  intros B l. induction l as [|x l IH]; intros s Is; cbn [for_each].
  - exists s. split; [reflexivity | exact Is].
  - destruct (B x s Is) as (s1 & R1 & I1). destruct (IH s1 I1) as (s2 & R2 & I2).
    exists s2. split; [|exact I2]. unfold bind. rewrite R1. exact R2.
Qed.

Lemma inner_loop_split (m : nat) (s : state) :
  inner_loop (S m) s = (inner_loop m ;; inner_iteration) s.
Proof. unfold inner_loop. apply for_range_S. Qed.

Lemma outer_step_n_completes (m : nat) :
  total_kernel -> interactive = true -> forall s, exists s', outer_step_n (S m) s = Ok tt s'.
Proof.
  intros T Ei s. unfold outer_step_n.
  destruct (update_old_all_ok s) as (s1 & R1 & _).
  unfold bind at 1. rewrite R1. unfold bind at 1. rewrite inner_loop_split.
  destruct (for_each_completes (fun _ => True) (fun _ : nat => inner_iteration)) with
    (l := seq 0 m) (s := s1) as (s2 & R2 & _); [|exact I|].
  { intros _ a _. destruct (inner_iteration_completes T Ei a) as (b & Rb). eauto. }
  unfold inner_loop, for_range, bind at 1. rewrite R2.
  destruct (inner_iteration_completes T Ei s2) as (s3 & R3). rewrite R3.
  apply inner_iteration_ok in R3 as (_ & _ & _ & _ & (ms & _ & Hr) & _).
  destruct s3 as [v o er vr r el cs]. cbn in Hr. subst r.
  unfold advance_and_report, bind, ret, modify, plot, print_elapsed_residual. cbn.
  rewrite Ei. eexists. reflexivity.
Qed.

Lemma loop_completes :
  total_kernel -> interactive = true -> forall s, exists s', loop s = Ok tt s'.
Proof.
  intros T Ei s. unfold loop, time_loop, for_range.
  destruct (for_each_completes (fun _ => True) (fun _ : nat => outer_step_n 100)) with
    (l := seq 0 500) (s := s) as (s' & R & _); [|exact I|eauto].
  intros _ a _. destruct (outer_step_n_completes 99 T Ei a) as (b & Rb). eauto.
Qed.

(** ** More on loops *)

(** A body that ignores the loop variable: only the number of rounds counts. *)
Lemma for_each_const {X Y} (c : M unit) (l : list X) : forall (l' : list Y) s,
  length l = length l' ->
  for_each l (fun _ => c) s = for_each l' (fun _ => c) s.
Proof.
  induction l as [|x l IH]; intros [|y l'] s L; try discriminate L; cbn [for_each].
  - reflexivity.
  - unfold bind. destruct (c s) as [[] s1|e s1]; [|reflexivity].
    apply IH. injection L as L. exact L.
Qed.

Lemma for_range_add (n1 n2 : nat) (c : M unit) (s : state) :
  for_range (n1 + n2) (fun _ => c) s
  = (for_range n1 (fun _ => c) ;; for_range n2 (fun _ => c)) s.
Proof.
  unfold for_range. rewrite seq_app, for_each_app. unfold bind.
  destruct (for_each (seq 0 n1) (fun _ => c) s) as [[] s1|e s1]; [|reflexivity].
  apply for_each_const. rewrite !length_seq. reflexivity.
Qed.

Lemma for_range_one (c : M unit) (s : state) :
  for_range 1 (fun _ => c) s = c s.
Proof.
  unfold for_range. cbn. unfold bind, ret. destruct (c s) as [[] s1|e s1]; reflexivity.
Qed.

Lemma for_range_at (n j k : nat) (c : M unit) (s : state) :
  n = j + S k ->
  for_range n (fun _ => c) s
  = (for_range j (fun _ => c) ;; c ;; for_range k (fun _ => c)) s.
Proof.
  intros ->. change (S k) with (1 + k). rewrite for_range_add. unfold bind.
  destruct (for_range j (fun _ => c) s) as [[] s1|e s1]; [|reflexivity].
  rewrite for_range_add. unfold bind. rewrite for_range_one. reflexivity.
Qed.

(** ** The old arrays and the clock *)

Lemma same_snapshot_refl (s : state) : same_snapshot s s.
Proof. split; reflexivity. Qed.

Lemma same_snapshot_trans (s1 s2 s3 : state) :
  same_snapshot s1 s2 -> same_snapshot s2 s3 -> same_snapshot s1 s3.
Proof. intros [O1 E1] [O2 E2]. split; congruence. Qed.

Lemma keeps_snapshot_bind {A B} (m : M A) (k : A -> M B) :
  keeps_snapshot m -> (forall a, keeps_snapshot (k a)) -> keeps_snapshot (bind m k).
Proof.
  intros Km Kk s. unfold bind. specialize (Km s).
  destruct (m s) as [a s1|e s1]; [|exact Km].
  cbn in Km. eapply same_snapshot_trans; [exact Km | apply Kk].
Qed.

Lemma keeps_snapshot_for_each {X} (l : list X) (body : X -> M unit) :
  (forall x, keeps_snapshot (body x)) -> keeps_snapshot (for_each l body).
Proof.
  intros Kb. induction l as [|x l IH]; cbn [for_each].
  - intros s. apply same_snapshot_refl.
  - apply keeps_snapshot_bind; auto.
Qed.

Lemma keeps_snapshot_inner_iteration : keeps_snapshot inner_iteration.
Proof.
  intros s. destruct s as [v o er vr r el cs].
  unfold inner_iteration, substitutionals, interstitials. cbn [for_each app].
  unfold bind, ret, raise, modify, solve, track, plot_residuals, plot, same_snapshot. cbn.
  case_through; split; reflexivity.
Qed.

Lemma keeps_snapshot_inner_loop (m : nat) : keeps_snapshot (inner_loop m).
Proof.
  unfold inner_loop, for_range. apply keeps_snapshot_for_each.
  intros _. apply keeps_snapshot_inner_iteration.
Qed.

Lemma advance_and_report_old (s : state) : old (final (advance_and_report s)) = old s.
Proof.
  destruct s as [v o er vr r el cs].
  unfold advance_and_report, bind, ret, modify, plot, print_elapsed_residual. cbn.
  destruct interactive; cbn; [destruct r|]; reflexivity.
Qed.

Lemma outer_step_n_old (m : nat) (s : state) : old (final (outer_step_n m s)) = value s.
Proof.
  unfold outer_step_n, bind.
  destruct (update_old_all_ok s) as (s1 & -> & _ & _ & Ho & _).
  destruct (keeps_snapshot_inner_loop m s1) as [Ko _].
  destruct (inner_loop m s1) as [[] s2|e s2]; cbn in Ko; [|cbn; congruence].
  rewrite advance_and_report_old. congruence.
Qed.

Lemma outer_step_n_elapsed (m : nat) (s s' : state) :
  outer_step_n m s = Ok tt s' -> elapsed s' = advance (elapsed s).
Proof.
  intros R. unfold outer_step_n in R.
  apply bind_ok in R as ([] & s1 & R1 & R).
  apply bind_ok in R as ([] & s2 & R2 & R3).
  destruct (update_old_all_ok s) as (s1' & R1' & _ & _ & _ & _ & _ & _ & E1).
  assert (s1' = s1) by congruence. subst s1'.
  destruct (keeps_snapshot_inner_loop m s1) as [_ E2]. rewrite R2 in E2. cbn in E2.
  apply advance_and_report_ok in R3 as (_ & _ & _ & _ & E3 & _).
  unfold advance. congruence.
Qed.

(** Rounds that each move the clock by [g]. *)
Lemma rounds_elapsed {X} (g : num -> num) (c : M unit) :
  (forall s s', c s = Ok tt s' -> elapsed s' = g (elapsed s)) ->
  forall (l : list X) s s', for_each l (fun _ => c) s = Ok tt s' ->
  elapsed s' = Nat.iter (length l) g (elapsed s).
Proof.
  intros C l. induction l as [|x l IH]; intros s s' R; cbn [for_each] in R.
  - injection R as <-. reflexivity.
  - apply bind_ok in R as ([] & s1 & R1 & R2).
    apply IH in R2. apply C in R1. cbn [length].
    rewrite Nat.iter_succ_r, <- R1. exact R2.
Qed.

(** X1: a completed run of the script leaves in [elapsed] the literal [0.]
    advanced by [dt] once per outer step, 500 times in all, whatever the
    clock held before and however many inner iterations ran. *)
Theorem X1_elapsed_advances_once_per_step (s s' : state) :
  script s = Ok tt s' ->
  elapsed s' = Nat.iter 500 advance f_zero.
Proof.
  intros R. unfold script in R. apply bind_ok in R as ([] & s1 & R1 & R).
  injection R1 as <-. unfold loop, time_loop, for_range in R.
  apply rounds_elapsed with (g := advance) in R.
  - rewrite length_seq in R. exact R.
  - apply outer_step_n_elapsed.
Qed.

(** X4: whichever way an outer step ends, the old arrays it leaves are the
    value arrays it started from: the snapshot is taken once, before the inner
    loop, and no inner iteration, completed or aborted, touches it. *)
Theorem X4_old_is_the_snapshot_of_the_step (s : state) (m : nat) :
  old (final (inner_loop m s)) = old s /\
  old (final (outer_step s)) = value s.
Proof.
  split.
  - apply keeps_snapshot_inner_loop.
  - apply outer_step_n_old.
Qed.

(** ** What is printed *)

Lemma printed_app (h1 h2 : list call) : printed (h1 ++ h2) = printed h1 ++ printed h2.
Proof. unfold printed. apply flat_map_app. Qed.

Lemma printed_concat_nil (hs : list (list call)) :
  Forall (fun h => printed h = []) hs -> printed (concat hs) = [].
Proof.
  induction 1 as [|h hs E F IH]; cbn [concat]; [reflexivity|].
  rewrite printed_app, E, IH. reflexivity.
Qed.

Lemma outer_step_n_printed (m : nat) (s s' : state) :
  interactive = true ->
  outer_step_n m s = Ok tt s' ->
  exists h r, history s' = history s ++ h /\
              printed h = [(advance (elapsed s), r)] /\
              elapsed s' = advance (elapsed s).
Proof.
  intros Ei R. pose proof (outer_step_n_elapsed _ _ R) as El.
  unfold outer_step_n in R.
  destruct (update_old_all_ok s) as (s1 & R1 & H1 & _).
  rewrite (bind_step _ _ _ R1) in R.
  apply bind_ok in R as ([] & s2 & R2 & R3).
  unfold inner_loop, for_range in R2.
  apply for_each_segments with (P := fun h => printed h = []) in R2.
  2:{ intros _ a b Rb. apply inner_iteration_ok in Rb as (Hh & _).
      eexists. split; [exact Hh | reflexivity]. }
  destruct R2 as (hs & H2 & _ & F).
  apply advance_and_report_ok in R3 as (_ & _ & _ & _ & _ & h3 & H3 & _ & _ & Hi).
  destruct (Hi Ei) as (r & _ & ->).
  eexists. exists r. split; [rewrite H3, H2, H1, <- !app_assoc; reflexivity|].
  split; [|exact El].
  rewrite !printed_app, (printed_concat_nil F), El. reflexivity.
Qed.

Lemma rounds_printed {X} (g : num -> num) (c : M unit) :
  (forall s s', c s = Ok tt s' ->
     exists h r, history s' = history s ++ h /\ printed h = [(g (elapsed s), r)] /\
                 elapsed s' = g (elapsed s)) ->
  forall (l : list X) s s', for_each l (fun _ => c) s = Ok tt s' ->
  exists h, history s' = history s ++ h /\
    map fst (printed h) = map (fun i => Nat.iter (S i) g (elapsed s)) (seq 0 (length l)).
Proof.
  intros C l. induction l as [|x l IH]; intros s s' R; cbn [for_each] in R.
  - injection R as <-. exists []. rewrite app_nil_r. split; reflexivity.
  - apply bind_ok in R as ([] & s1 & R1 & R2).
    apply C in R1 as (h1 & r & H1 & P1 & E1). apply IH in R2 as (h2 & H2 & P2).
    exists (h1 ++ h2). split; [rewrite H2, H1, app_assoc; reflexivity|].
    rewrite printed_app, map_app, P1, P2, E1. cbn [length seq map fst app].
    f_equal. rewrite <- seq_shift, map_map. apply map_ext. intros i.
    rewrite <- Nat.iter_succ_r. reflexivity.
Qed.

(** X2: run as a script, a completed loop prints exactly 500 lines, one per
    outer step and in order; the elapsed time on line [i] (from 0) is the
    clock at the start of the loop advanced by [dt] [i + 1] times. *)
Theorem X2_one_line_per_step (s s' : state) :
  interactive = true ->
  loop s = Ok tt s' ->
  exists h, history s' = history s ++ h /\
    map fst (printed h) = map (fun i => Nat.iter (S i) advance (elapsed s)) (seq 0 500).
Proof.
  intros Ei R. unfold loop, time_loop, for_range in R.
  apply rounds_printed with (g := advance) in R.
  - rewrite length_seq in R. exact R.
  - intros a b Rb. eapply outer_step_n_printed; eassumption.
Qed.

(** ** Outside a script *)

Lemma inner_iteration_needs_script (s s' : state) (a : unit) :
  inner_iteration s = Ok a s' -> interactive = true.
Proof.
  intros R. destruct s as [v o er vr r el cs].
  unfold inner_iteration, substitutionals, interstitials in R.
  cbn [for_each app] in R.
  unfold bind, ret, raise, modify, solve, track, plot_residuals, plot in R. cbn in R.
  step_through R. reflexivity.
Qed.

Lemma inner_iteration_name_error (s s' : state) :
  inner_iteration s = Raised NameError s' ->
  history s' = history s ++
    [ Solve phase phase dt [] None (Some (get phase (eq_residual s')));
      Solve potential potential dt bcs None (Some (get potential (eq_residual s')));
      Solve SO4 SO4 dt [] (Some solver) (Some (get SO4 (eq_residual s')));
      Solve Cu Cu dt [] (Some solver) (Some (get Cu (eq_residual s')));
      Solve eminus eminus dt [] (Some solver) (Some (get eminus (eq_residual s'))) ].
Proof.
  intros R. destruct s as [v o er vr r el cs].
  unfold inner_iteration, substitutionals, interstitials in R.
  cbn [for_each app] in R.
  unfold bind, ret, raise, modify, solve, track, plot_residuals, plot in R. cbn in R.
  step_through R. injection R as <-.
  unfold history. cbn. rewrite <- ?app_assoc. reflexivity.
Qed.

Lemma inner_iteration_unbound_viewer :
  total_kernel -> interactive = false ->
  forall s, exists s', inner_iteration s = Raised NameError s'.
Proof.
  intros T Ei s. destruct s as [v o er vr r el cs].
  unfold inner_iteration, substitutionals, interstitials. cbn [for_each app].
  unfold bind, ret, raise, modify, solve, track, plot_residuals, plot. rewrite Ei. cbn.
  repeat match goal with
         | |- context [kernel ?e ?w ?vs ?os ?d ?b ?sv] =>
             let x := fresh "x" in let y := fresh "y" in let r := fresh "r" in
             destruct (T e w vs os d b sv) as (x & y & r & ->); cbn
         end.
  eexists. reflexivity.
Qed.

(** An exception of the first inner iteration is the outcome of the loop. *)
Lemma first_iteration_raises (s s1 b : state) (e : exn) :
  update_old_all s = Ok tt s1 ->
  inner_iteration s1 = Raised e b ->
  loop s = Raised e b.
Proof.
  intros R1 Rb. unfold loop, time_loop, for_range.
  change (seq 0 500) with (0 :: seq 1 499). cbn [for_each].
  unfold bind at 1. unfold outer_step_n at 1. unfold bind at 1. rewrite R1.
  unfold bind at 1. unfold inner_loop, for_range.
  change (seq 0 100) with (0 :: seq 1 99). cbn [for_each].
  unfold bind at 1. rewrite Rb. reflexivity.
Qed.

Lemma outside_script_first_iteration (s : state) :
  interactive = false ->
  exists s1 e b, update_old_all s = Ok tt s1 /\ inner_iteration s1 = Raised e b /\
                 loop s = Raised e b.
Proof.
  intros Ei. destruct (update_old_all_ok s) as (s1 & R1 & _).
  destruct (inner_iteration s1) as [a b|e b] eqn:Rb.
  - apply inner_iteration_needs_script in Rb. congruence.
  - exists s1, e, b. split; [exact R1|]. split; [exact Rb|].
    eapply first_iteration_raises; eassumption.
Qed.

(** X3: outside a script the name [residualViewer] is unbound, and the loop
    never completes.  It ends in its first inner iteration: when it ends in
    [NameError], the calls made are the five [updateOld] and the five solves
    of that iteration, each of which returned, and nothing was plotted or
    printed; a library whose solves never fail and leave residuals with
    entries makes it end so. *)
Theorem X3_outside_script_first_plot_raises (s : state) :
  interactive = false ->
  (forall a s', loop s <> Ok a s') /\
  (forall s', loop s = Raised NameError s' ->
     history s' = history s ++
       [ UpdateOld phase; UpdateOld potential; UpdateOld SO4; UpdateOld Cu;
         UpdateOld eminus;
         Solve phase phase dt [] None (Some (get phase (eq_residual s')));
         Solve potential potential dt bcs None (Some (get potential (eq_residual s')));
         Solve SO4 SO4 dt [] (Some solver) (Some (get SO4 (eq_residual s')));
         Solve Cu Cu dt [] (Some solver) (Some (get Cu (eq_residual s')));
         Solve eminus eminus dt [] (Some solver) (Some (get eminus (eq_residual s'))) ]) /\
  (total_kernel -> exists s', loop s = Raised NameError s').
Proof.
  intros Ei. destruct (outside_script_first_iteration s Ei) as (s1 & e & b & R1 & Rb & R).
  split; [|split].
  - intros a s' E. congruence.
  - intros s' E. rewrite R in E. injection E as -> ->.
    apply inner_iteration_name_error in Rb. rewrite Rb.
    destruct (update_old_all_ok s) as (s1' & R1' & H1 & _).
    assert (s1' = s1) by congruence. subst s1'.
    rewrite H1, <- app_assoc. reflexivity.
  - intros T. destruct (inner_iteration_unbound_viewer T Ei s1) as (b' & Rb').
    exists b. rewrite R. congruence.
Qed.

(** ** Runs in two parts *)

(** X8: the loop variables [i] and [j] are not used, and nothing but the
    objects is carried from one outer step to the next: the 500 steps are the
    first [a] steps followed by the other [b] from the state those left, and
    the 100 inner iterations of a step split the same way. *)
Theorem X8_run_splits_at_step_boundaries (a b j k : nat) (s : state) :
  a + b = 500 -> j + k = 100 ->
  loop s = (time_loop a 100 ;; time_loop b 100) s /\
  inner_loop 100 s = (inner_loop j ;; inner_loop k) s.
Proof.
  intros E1 E2. split.
  - unfold loop, time_loop. rewrite <- E1. apply for_range_add.
  - unfold inner_loop. rewrite <- E2. apply for_range_add.
Qed.

(** X9: an exception raised by the inner iteration number [j] of the outer
    step number [i] (both from 0) ends the run on the spot: the run raises
    that exception and leaves the state in which it was raised. *)
Theorem X9_exception_ends_the_run (i j : nat) (s a b : state) (e : exn) :
  i < 500 -> j < 100 ->
  (time_loop i 100 ;; update_old_all ;; inner_loop j) s = Ok tt a ->
  inner_iteration a = Raised e b ->
  loop s = Raised e b.
Proof.
  intros Li Lj R Rb.
  apply bind_ok in R as ([] & a0 & R0 & R). apply bind_ok in R as ([] & a1 & R1 & R2).
  unfold time_loop in R0. unfold inner_loop in R2.
  unfold loop, time_loop.
  rewrite for_range_at with (j := i) (k := 499 - i) by lia.
  unfold bind at 1. rewrite R0.
  unfold bind at 1. unfold outer_step_n at 1. unfold bind at 1. rewrite R1.
  unfold bind at 1. unfold inner_loop at 1.
  rewrite for_range_at with (j := j) (k := 99 - j) by lia.
  unfold bind at 1. rewrite R2. unfold bind at 1. rewrite Rb. reflexivity.
Qed.

(** ** What the names held before the script *)

Lemma update_old_all_residual (r : option num) (s s1 : state) :
  update_old_all s = Ok tt s1 ->
  update_old_all (with_residual r s) = Ok tt (with_residual r s1).
Proof.
  destruct s as [[v1 v2 v3 v4 v5] o er vr r0 el cs]. intros R.
  cbn in R. injection R as <-. reflexivity.
Qed.

Lemma inner_iteration_resets (r : option num) (s : state) :
  inner_iteration (with_residual r s) = inner_iteration s.
Proof. destruct s; reflexivity. Qed.

Lemma outer_step_n_resets (m : nat) (r : option num) (s : state) :
  outer_step_n (S m) (with_residual r s) = outer_step_n (S m) s.
Proof.
  unfold outer_step_n. destruct (update_old_all_ok s) as (s1 & R1 & _).
  unfold bind. rewrite (update_old_all_residual r R1), R1.
  unfold inner_loop, for_range. cbn [seq for_each].
  unfold bind. rewrite inner_iteration_resets. reflexivity.
Qed.

(** X10: the script reads neither [elapsed] nor [residual] before it has
    bound them: whatever the two names held beforehand, the run ends the same
    way, in the same state and after the same calls and printed lines. *)
Theorem X10_names_are_bound_before_use (r : option num) (e : num) (s : state) :
  script (with_residual r (with_elapsed e s)) = script s.
Proof.
  unfold script, bind, modify.
  replace (with_elapsed f_zero (with_residual r (with_elapsed e s)))
    with (with_residual r (with_elapsed f_zero s)) by (destruct s; reflexivity).
  unfold loop, time_loop, for_range.
  change (seq 0 500) with (0 :: seq 1 499). cbn [for_each].
  unfold bind. rewrite outer_step_n_resets. reflexivity.
Qed.

(** ** The builtin [max] computes a maximum *)

Section Maximum.

Context {no_nan : @NoNaN num _}.

Lemma gt_irrefl (a : num) : f_gt a a = false.
Proof.
  destruct (f_gt a a) eqn:E; [|reflexivity].
  pose proof (gt_asym _ _ E). congruence.
Qed.

Lemma py_max2_bounds (a b : num) :
  f_gt a (py_max2 a b) = false /\ f_gt b (py_max2 a b) = false /\
  (py_max2 a b = a \/ py_max2 a b = b).
Proof.
  unfold py_max2. destruct (f_gt b a) eqn:E.
  - repeat split; auto using gt_asym, gt_irrefl.
  - repeat split; auto using gt_irrefl.
Qed.

Lemma py_max_from_bounds (xs : list num) : forall m,
  In (py_max_from m xs) (m :: xs) /\
  Forall (fun x => f_gt x (py_max_from m xs) = false) (m :: xs).
Proof.
  induction xs as [|x xs IH]; intros m; cbn [py_max_from].
  - split; [left; reflexivity | repeat constructor; apply gt_irrefl].
  - destruct (IH (if f_gt x m then x else m)) as [I F].
    apply Forall_cons_iff in F as [F0 F].
    split.
    + destruct I as [I|I]; [|right; right; exact I].
      rewrite <- I. destruct (f_gt x m); [right; left|left]; reflexivity.
    + destruct (f_gt x m) eqn:E.
      * constructor; [|constructor; assumption].
        apply gt_negtrans with x; [apply gt_asym; exact E | exact F0].
      * constructor; [exact F0|constructor; [|exact F]].
        apply gt_negtrans with m; assumption.
Qed.

Lemma py_max_is_maximum (xs : array) (m : num) :
  py_max xs = Some m -> is_maximum m xs.
Proof.
  destruct xs as [|x xs]; cbn; [discriminate|].
  intros E; injection E as <-. apply py_max_from_bounds.
Qed.

Lemma is_maximum_py_max2 (m r : num) (xs : list num) :
  is_maximum r xs -> is_maximum (py_max2 m r) (xs ++ [m]).
Proof.
  intros [I F]. destruct (py_max2_bounds m r) as (B1 & B2 & [E|E]); split.
  - rewrite E. apply in_or_app. right. left. reflexivity.
  - apply Forall_app. split; [|repeat constructor; exact B1].
    eapply Forall_impl; [|exact F]. cbn. intros a Ha.
    apply gt_negtrans with r; assumption.
  - rewrite E. apply in_or_app. left. exact I.
  - apply Forall_app. split; [|repeat constructor; exact B1].
    eapply Forall_impl; [|exact F]. cbn. intros a Ha.
    apply gt_negtrans with r; assumption.
Qed.

Lemma tracked_is_maximum (ms : per_field num) :
  is_maximum (tracked ms) (f_zero :: map (fun f => get f ms) fields).
Proof.
  unfold tracked.
  change (f_zero :: map (fun f => get f ms) fields)
    with ((((([f_zero] ++ [at_phase ms]) ++ [at_potential ms]) ++ [at_SO4 ms])
             ++ [at_Cu ms]) ++ [at_eminus ms]).
  repeat apply is_maximum_py_max2.
  split; [left; reflexivity | repeat constructor; apply gt_irrefl].
Qed.

Lemma iteration_maximum (s s' : state) :
  inner_iteration s = Ok tt s' ->
  exists (ms : list num) (r : num),
    Forall2 (fun f m => is_maximum m (get f (eq_residual s'))) fields ms /\
    residual s' = Some r /\
    is_maximum r (f_zero :: ms).
Proof.
  intros R. apply inner_iteration_ok in R as (_ & _ & _ & _ & (ms & Hm & Hr) & _).
  exists (map (fun f => get f ms) fields), (tracked ms). split; [|split].
  - cbn. repeat constructor; apply py_max_is_maximum, Hm.
  - exact Hr.
  - apply tracked_is_maximum.
Qed.

(** C1: in every inner iteration that completes, the calls made are the five
    solves (phase, potential, the two substitutionals, the interstitial) and
    the plot, each solve leaving the residual that its equation still holds at
    the end of the iteration; and the scalar [residual] that the iteration
    leaves is a maximum of [0.] (its value at the start of the iteration) and
    of the five per-field maxima, each of which is a maximum of the entries of
    that field's equation residual. *)
Theorem C1_tracked_residual_is_iteration_maximum (s s' : state) :
  inner_iteration s = Ok tt s' ->
  history s' = history s ++ iteration_calls s' /\
  exists (ms : list num) (r : num),
    Forall2 (fun f m => is_maximum m (get f (eq_residual s'))) fields ms /\
    residual s' = Some r /\
    is_maximum r (f_zero :: ms).
Proof.
  intros R. split.
  - apply inner_iteration_ok in R as (Hh & _). exact Hh.
  - eapply iteration_maximum; exact R.
Qed.

(** C10: the scalar [residual] that a completed outer step holds at its end,
    and prints with the elapsed time when run as a script, is the one its
    100th inner iteration left.  That iteration starts from [residual = 0.]
    whatever the 99 iterations before it tracked, so the scalar is a maximum
    of [0.] and of the per-field maxima of the residuals of the 100th
    iteration alone. *)
Theorem C10_reported_residual_is_last_iteration (s s' : state) :
  outer_step s = Ok tt s' ->
  exists a b : state,
    (update_old_all ;; inner_loop 99) s = Ok tt a /\
    inner_iteration a = Ok tt b /\
    (forall r0, inner_iteration (with_residual r0 a) = Ok tt b) /\
    exists (ms : list num) (r : num),
      Forall2 (fun f m => is_maximum m (get f (eq_residual b))) fields ms /\
      is_maximum r (f_zero :: ms) /\
      residual b = Some r /\
      residual s' = Some r /\
      (interactive = true -> exists h, history s' = h ++ [Output (elapsed s') r]).
Proof.
  intros R. unfold outer_step, outer_step_n in R.
  apply bind_ok in R as ([] & s1 & R1 & R).
  apply bind_ok in R as ([] & b & R2 & R3).
  rewrite inner_loop_split in R2. apply bind_ok in R2 as ([] & a & R2 & Rb).
  exists a, b. split; [|split; [exact Rb|split]].
  - unfold bind. rewrite R1. exact R2.
  - intros r0. rewrite <- Rb. destruct a; reflexivity.
  - destruct (iteration_maximum a Rb) as (ms & r & F & Hr & Mx).
    exists ms, r.
    apply advance_and_report_ok in R3 as (_ & _ & _ & Hres & _ & h & Hh & _ & _ & Hi).
    split; [exact F|]. split; [exact Mx|]. split; [exact Hr|]. split; [congruence|].
    intros Ei. destruct (Hi Ei) as (r' & Hr' & ->).
    assert (r' = r) by congruence. subst r'.
    exists (history b ++ [Plot phaseViewer; Plot concViewer; Plot potentialViewer]).
    rewrite Hh, <- app_assoc. reflexivity.
Qed.

Lemma maxima_are_entries (r : num) (P : field -> list num) (fs : list field) (ms : list num) :
  Forall2 (fun f m => is_maximum m (P f)) fs ms -> In r ms -> exists f, In r (P f).
Proof.
  induction 1 as [|f m fs ms [I _] F IH]; intros Ir; [destruct Ir|].
  destruct Ir as [<-|Ir]; eauto.
Qed.

(** X7: the scalar is a signed maximum that starts from [0.]: it is never
    below zero, and when no entry of any residual of the iteration is
    positive it is zero, however large the entries are in magnitude. *)
Theorem X7_negative_residuals_are_not_seen (s s' : state) :
  inner_iteration s = Ok tt s' ->
  (forall f x, In x (get f (eq_residual s')) -> f_gt x f_zero = false) ->
  exists r, residual s' = Some r /\ f_gt r f_zero = false /\ f_gt f_zero r = false.
Proof.
  intros R Neg. destruct (iteration_maximum s R) as (ms & r & F & Hr & [I U]).
  exists r. split; [exact Hr|]. split.
  - destruct I as [<-|I]; [apply gt_irrefl|].
    destruct (maxima_are_entries r (fun f => get f (eq_residual s')) F I) as (f & If).
    apply (Neg f r If).
  - apply Forall_cons_iff in U as [U _]. exact U.
Qed.

End Maximum.

End Loop.

Arguments Raised {num A} e s.

Notation "m ;; k" := (bind m (fun _ => k)) (at level 61, right associativity).

(** * A run on integers *)

(** Integers as floats without rounding. *)
#[export] Instance Z_float : PyFloat Z :=
  {| f_zero := 0%Z; f_one := 1%Z; f_add := Z.add; f_gt := Z.gtb |}.

(** A library over two cells whose solves never fail: a solve advances every
    cell of its variable by [dt]; the residual is the progress of the first
    cell since the old array, then the distance of the other cells from the
    first cell of the phase field (which couples every equation to the phase
    field). *)
Definition toy_kernel (eqn var : field) (vs os : per_field (list Z)) (d : Z)
    (b : list boundaryCondition) (sv : option linearSolver) : option (list Z * list Z) :=
  let x := map (Z.add d) (get var vs) in
  Some (x, (hd 0 x - hd 0 (get var os)) :: map (fun c => c - hd 0 (get phase vs)) (tl x))%Z.

(** The same library, except that the solve for Cu fails once the first cell
    of the phase field has passed 2. *)
Definition stiff_kernel (eqn var : field) (vs os : per_field (list Z)) (d : Z)
    (b : list boundaryCondition) (sv : option linearSolver) : option (list Z * list Z) :=
  match var with
  | Cu => if (hd 0 (get phase vs) >? 2)%Z then None else toy_kernel eqn var vs os d b sv
  | _ => toy_kernel eqn var vs os d b sv
  end.

(** A library whose equations are coupled through the values: a solve
    advances every cell of its variable by [dt] plus the first cell of the
    phase field as it is when the solve runs. *)
Definition coupled_kernel (eqn var : field) (vs os : per_field (list Z)) (d : Z)
    (b : list boundaryCondition) (sv : option linearSolver) : option (list Z * list Z) :=
  let x := map (fun c => c + d + hd 0 (get phase vs))%Z (get var vs) in
  Some (x, (hd 0 x - hd 0 (get var os)) :: map (fun c => c - hd 0 (get phase vs)) (tl x))%Z.

(** A library whose residuals shrink from one solve to the next: each entry of
    the residual is the distance of the new cell from 50. *)
Definition cooling_kernel (eqn var : field) (vs os : per_field (list Z)) (d : Z)
    (b : list boundaryCondition) (sv : option linearSolver) : option (list Z * list Z) :=
  let x := map (Z.add d) (get var vs) in
  Some (x, map (fun c => 50 - c) x)%Z.

Definition cells0 : per_field (list Z) :=
  PerField [1; 0]%Z [0; 0]%Z [2; 3]%Z [5; 4]%Z [7; 1]%Z.

Definition nothing : per_field (list Z) := PerField [] [] [] [] [].

(** Cells beyond 50, where [cooling_kernel] leaves only negative residuals. *)
Definition hot_cells : per_field (list Z) :=
  PerField [60; 70]%Z [55; 50]%Z [80; 90]%Z [51; 99]%Z [70; 60]%Z.

Definition s_hot : state := State hot_cells hot_cells nothing nothing None 0%Z [].

(** Before the loop: the old arrays are copies of the values, no equation has
    a residual yet, [residual] is unbound and [elapsed] is [0.]. *)
Definition s0 : state := State cells0 cells0 nothing nothing None 0%Z [].

(** The state that one inner iteration leaves from [s0] with [toy_kernel]. *)
Definition s1 : state :=
  State (PerField [2; 1]%Z [1; 1]%Z [3; 4]%Z [6; 5]%Z [8; 2]%Z)
        cells0
        (PerField [1; 0]%Z [1; -1]%Z [1; 2]%Z [1; 3]%Z [1; 0]%Z)
        (PerField [1; 0]%Z [1; -1]%Z [1; 2]%Z [1; 3]%Z [1; 0]%Z)
        (Some 3%Z) 0%Z
        [ Plot residualViewer;
          Solve eminus eminus 1%Z [] (Some LinearLUSolver) (Some [1; 0]%Z);
          Solve Cu Cu 1%Z [] (Some LinearLUSolver) (Some [1; 3]%Z);
          Solve SO4 SO4 1%Z [] (Some LinearLUSolver) (Some [1; 2]%Z);
          Solve potential potential 1%Z [FixedValue FacesLeft 0] None (Some [1; -1]%Z);
          Solve phase phase 1%Z [] None (Some [1; 0]%Z) ].

(** The calls of the run of [stiff_kernel] from [s0] before the solve that
    fails: the five snapshots, a whole inner iteration and three solves of the
    second one. *)
Definition calls_before_failure : list call :=
  [ UpdateOld phase; UpdateOld potential; UpdateOld SO4; UpdateOld Cu; UpdateOld eminus;
    Solve phase phase 1%Z [] None (Some [1; 0]%Z);
    Solve potential potential 1%Z [FixedValue FacesLeft 0] None (Some [1; -1]%Z);
    Solve SO4 SO4 1%Z [] (Some LinearLUSolver) (Some [1; 2]%Z);
    Solve Cu Cu 1%Z [] (Some LinearLUSolver) (Some [1; 3]%Z);
    Solve eminus eminus 1%Z [] (Some LinearLUSolver) (Some [1; 0]%Z);
    Plot residualViewer;
    Solve phase phase 1%Z [] None (Some [2; 0]%Z);
    Solve potential potential 1%Z [FixedValue FacesLeft 0] None (Some [2; -1]%Z);
    Solve SO4 SO4 1%Z [] (Some LinearLUSolver) (Some [2; 2]%Z) ].

(** A state with the value arrays of [s0] and nothing else in common with it. *)
Definition s0' : state :=
  State cells0 nothing cells0 nothing (Some 9%Z) 41%Z [Plot concViewer].

#[export] Instance Z_no_nan : @NoNaN Z Z_float.
Proof.
  split; cbn; intros a b.
  - rewrite !Z.gtb_ltb, Z.ltb_lt, Z.ltb_ge. lia.
  - intros c. rewrite !Z.gtb_ltb, !Z.ltb_ge. lia.
Qed.

Lemma toy_kernel_total : total_kernel toy_kernel.
Proof. intros eqn var vs os d b sv. unfold toy_kernel. eauto. Qed.

Lemma coupled_kernel_total : total_kernel coupled_kernel.
Proof. intros eqn var vs os d b sv. unfold coupled_kernel. eauto. Qed.

(** ** The claims on that run *)

Lemma C1_witness :
  inner_iteration toy_kernel true s0 = Ok tt s1 /\
  (history s1 = history s0 ++ iteration_calls s1 /\
   exists (ms : list Z) (r : Z),
     Forall2 (fun f m => is_maximum m (get f (eq_residual s1))) fields ms /\
     residual s1 = Some r /\
     is_maximum r (f_zero :: ms)).
Proof.
  split; [vm_compute; reflexivity|].
  apply (C1_tracked_residual_is_iteration_maximum toy_kernel true s0).
  vm_compute; reflexivity.
Defined.


(** C4, as stated: the boundary conditions would go to every solve.  In the
    iteration from [s0] the phase solve is called without any. *)
Lemma C4_counterexample :
  inner_iteration toy_kernel true s0 = Ok tt s1 /\
  ~ every_solve_passes bcs (history s1).
Proof.
  split; [vm_compute; reflexivity|].
  intros P.
  specialize (P phase phase 1%Z [] None (Some [1; 0]%Z)).
  discriminate P. cbn. auto.
Qed.

Lemma C4_witness :
  inner_iteration toy_kernel true s0 = Ok tt s1 /\
  (history s1 = history s0 ++
     [ Solve phase phase dt [] None (Some (get phase (eq_residual s1)));
       Solve potential potential dt bcs None (Some (get potential (eq_residual s1)));
       Solve SO4 SO4 dt [] (Some solver) (Some (get SO4 (eq_residual s1)));
       Solve Cu Cu dt [] (Some solver) (Some (get Cu (eq_residual s1)));
       Solve eminus eminus dt [] (Some solver) (Some (get eminus (eq_residual s1)));
       Plot residualViewer ] /\
   var_residual s1 = eq_residual s1 /\
   exists ms : per_field Z,
     (forall f, py_max (get f (eq_residual s1)) = Some (get f ms)) /\
     residual s1 = Some (tracked ms)).
Proof.
  split; [vm_compute; reflexivity|].
  apply (C4_solve_order_and_arguments toy_kernel true s0).
  vm_compute; reflexivity.
Defined.

Lemma C6_witness :
  let c := Solve Cu Cu 1%Z [] (Some LinearLUSolver) None in
  let s' := final (loop stiff_kernel true s0) in
  (history s' = history s0 ++ calls_before_failure ++ c :: [] /\ failed c = true) /\
  (@nil (@call Z) = [] /\
   loop stiff_kernel true s0 = Raised SolveFailure s' /\
   clean calls_before_failure /\
   exists eqn var d b sv,
     c = Solve eqn var d b sv None /\
     stiff_kernel eqn var (value s') (old s') d b sv = None).
Proof.
  cbv zeta. split; [split; vm_compute; reflexivity|].
  apply (C6_solve_failure_aborts_run stiff_kernel true s0 calls_before_failure []);
    vm_compute; reflexivity.
Defined.

Lemma C7_witness :
  inner_iteration toy_kernel true s0 = Ok tt s1 /\
  ((exists h, history s1 = history s0 ++ h /\ own_solves h /\ NoDup (solve_vars h)) /\
   (forall eqn var d b sv a f, f <> var ->
      get f (value (final (solve toy_kernel eqn var d b sv a))) = get f (value a)) /\
   (forall f a, value (final (track f a)) = value a) /\
   (forall f, exists vs b sv r,
      toy_kernel f f vs (old s0) dt b sv = Some (get f (value s1), r) /\
      get f vs = get f (value s0) /\
      forall g, get g vs = get g (value s0) \/ get g vs = get g (value s1))).
Proof.
  split; [vm_compute; reflexivity|].
  apply (C7_only_own_solve_writes toy_kernel true s0).
  vm_compute; reflexivity.
Defined.

Lemma C9_witness :
  (forall f, get f (value s0) = get f (value s0')) /\
  agree (fun t1 t2 => forall f, get f (value t1) = get f (value t2))
    (loop coupled_kernel true s0) (loop coupled_kernel true s0') /\
  exists t1, loop coupled_kernel true s0 = Ok tt t1 /\
             gauss_seidel_run coupled_kernel 500 100 (value s0') = Some (value t1).
Proof.
  assert (E : forall f, get f (value s0) = get f (value s0')) by reflexivity.
  split; [exact E|].
  destruct (C9_loop_is_deterministic coupled_kernel true s0 s0' E) as [A G].
  split; [exact A|].
  destruct (loop_completes coupled_kernel_total (eq_refl true) s0) as (t1 & R).
  exists t1. split; [exact R | exact (G t1 R)].
Defined.

(** With coupled equations the order of the solves and the Gauss-Seidel
    reading both show in the arrays: from [cells0], the sweep in the order of
    the loop, the sweep in the opposite order and the Jacobi sweep leave three
    different potentials. *)
Example sweep_order_matters :
  option_map (get potential) (gauss_seidel_sweep coupled_kernel fields cells0 cells0)
    = Some [4; 4]%Z /\
  option_map (get potential) (gauss_seidel_sweep coupled_kernel (rev fields) cells0 cells0)
    = Some [2; 2]%Z /\
  option_map (get phase) (gauss_seidel_sweep coupled_kernel (rev fields) cells0 cells0)
    = option_map (get phase) (gauss_seidel_sweep coupled_kernel fields cells0 cells0) /\
  option_map (get potential) (jacobi_sweep coupled_kernel fields cells0 cells0 cells0)
    = Some [2; 2]%Z.
Proof. repeat split; vm_compute; reflexivity. Qed.

Lemma C10_witness :
  let s' := final (outer_step toy_kernel true s0) in
  outer_step toy_kernel true s0 = Ok tt s' /\
  exists a b : state,
    (update_old_all ;; inner_loop toy_kernel true 99) s0 = Ok tt a /\
    inner_iteration toy_kernel true a = Ok tt b /\
    (forall r0, inner_iteration toy_kernel true (with_residual r0 a) = Ok tt b) /\
    exists (ms : list Z) (r : Z),
      Forall2 (fun f m => is_maximum m (get f (eq_residual b))) fields ms /\
      is_maximum r (f_zero :: ms) /\
      residual b = Some r /\
      residual s' = Some r /\
      (true = true -> exists h, history s' = h ++ [Output (elapsed s') r]).
Proof.
  cbv zeta. split; [vm_compute; reflexivity|].
  apply (C10_reported_residual_is_last_iteration toy_kernel true s0).
  vm_compute; reflexivity.
Defined.

(** With residuals that shrink, the first inner iteration of the step from
    [s0] tracks 49, and the step ends with [residual] at 0: the 100th
    iteration found no positive entry, and nothing of the 49 is kept. *)
Example earlier_iterations_are_forgotten :
  residual (final (inner_iteration cooling_kernel true s0)) = Some 49%Z /\
  residual (final (outer_step cooling_kernel true s0)) = Some 0%Z.
Proof. split; vm_compute; reflexivity. Qed.

(** ** Further properties on that run *)

Lemma X1_witness :
  exists s', script toy_kernel true s0 = Ok tt s' /\
             elapsed s' = Nat.iter 500 advance f_zero.
Proof.
  destruct (loop_completes toy_kernel_total (eq_refl true) (with_elapsed f_zero s0)) as (s' & R).
  exists s'. split; [exact R|].
  apply (X1_elapsed_advances_once_per_step toy_kernel true s0 R).
Defined.

Lemma X2_witness :
  true = true /\
  exists s', loop toy_kernel true s0 = Ok tt s' /\
    exists h, history s' = history s0 ++ h /\
      map fst (printed h)
      = map (fun i => Nat.iter (S i) advance (elapsed s0)) (seq 0 500).
Proof.
  split; [reflexivity|].
  destruct (loop_completes toy_kernel_total (eq_refl true) s0) as (s' & R).
  exists s'. split; [exact R|].
  apply (X2_one_line_per_step toy_kernel s0 eq_refl R).
Defined.

Lemma X3_witness :
  false = false /\
  (forall a s', loop toy_kernel false s0 <> Ok a s') /\
  exists s', loop toy_kernel false s0 = Raised NameError s'.
Proof.
  split; [reflexivity|].
  destruct (X3_outside_script_first_plot_raises toy_kernel s0 (eq_refl false))
    as (N & _ & C).
  split; [exact N | exact (C toy_kernel_total)].
Defined.

Lemma X7_witness :
  let s' := final (inner_iteration cooling_kernel true s_hot) in
  (inner_iteration cooling_kernel true s_hot = Ok tt s' /\
   forall f x, In x (get f (eq_residual s')) -> f_gt x f_zero = false) /\
  exists r, residual s' = Some r /\ f_gt r f_zero = false /\ f_gt f_zero r = false.
Proof.
  cbv zeta.
  assert (R : inner_iteration cooling_kernel true s_hot
              = Ok tt (final (inner_iteration cooling_kernel true s_hot)))
    by (vm_compute; reflexivity).
  assert (N : forall f x,
             In x (get f (eq_residual (final (inner_iteration cooling_kernel true s_hot)))) ->
             f_gt x f_zero = false).
  { intros f x I. destruct f; vm_compute in I;
      repeat (destruct I as [<-|I]; [reflexivity|]); destruct I. }
  split; [split; [exact R | exact N]|].
  apply (X7_negative_residuals_are_not_seen cooling_kernel true s_hot R N).
Defined.

Lemma X8_witness :
  (200 + 300 = 500 /\ 40 + 60 = 100) /\
  loop toy_kernel true s0 = (time_loop toy_kernel true 200 100 ;;
                              time_loop toy_kernel true 300 100) s0 /\
  inner_loop toy_kernel true 100 s0 = (inner_loop toy_kernel true 40 ;; inner_loop toy_kernel true 60) s0.
Proof.
  split; [split; reflexivity|].
  apply (X8_run_splits_at_step_boundaries toy_kernel true 200 300 40 60 s0);
    reflexivity.
Defined.

Lemma X9_witness :
  let a := final ((time_loop stiff_kernel true 0 100 ;; update_old_all ;;
                   inner_loop stiff_kernel true 1) s0) in
  let b := final (inner_iteration stiff_kernel true a) in
  (0 < 500 /\ 1 < 100 /\
   (time_loop stiff_kernel true 0 100 ;; update_old_all ;;
    inner_loop stiff_kernel true 1) s0 = Ok tt a /\
   inner_iteration stiff_kernel true a = Raised SolveFailure b) /\
  loop stiff_kernel true s0 = Raised SolveFailure b.
Proof.
  cbv zeta.
  assert (Ra : (time_loop stiff_kernel true 0 100 ;; update_old_all ;;
                inner_loop stiff_kernel true 1) s0
               = Ok tt (final ((time_loop stiff_kernel true 0 100 ;; update_old_all ;;
                                inner_loop stiff_kernel true 1) s0)))
    by (vm_compute; reflexivity).
  assert (Rb : inner_iteration stiff_kernel true
                 (final ((time_loop stiff_kernel true 0 100 ;; update_old_all ;;
                          inner_loop stiff_kernel true 1) s0))
               = Raised SolveFailure
                   (final (inner_iteration stiff_kernel true
                     (final ((time_loop stiff_kernel true 0 100 ;; update_old_all ;;
                              inner_loop stiff_kernel true 1) s0)))))
    by (vm_compute; reflexivity).
  split; [split; [lia | split; [lia | split; [exact Ra | exact Rb]]]|].
  eapply X9_exception_ends_the_run; [ | | exact Ra | exact Rb]; lia.
Defined.
